(** * libdabcommon: the DAB transmission mode descriptors

    A shallow embedding of [include/types/mode_descriptor.h]: the
    [constexpr] helper [detail::next_power_of_two], the class template
    [mode_descriptor] with its member constants, and the four standardized
    descriptors [mode_1] .. [mode_4].

    Every quantity of the header is a [std::size_t], 64 bits wide on the
    platforms the library is built for.  It is modelled as an integer of
    [Z] in the range [0 .. 2^64 - 1], with the wrap-around of unsigned
    arithmetic written out ([wrap]).  A constant expression the
    compiler rejects (a division by zero, a recursion that never returns)
    is modelled as [None]. *)

From Stdlib Require Import ZArith Lia Bool List.
Import ListNotations.

Local Open Scope Z_scope.

(** ** [std::size_t] *)

Definition size_bits : Z := 64.

Definition size_modulus : Z := 2 ^ size_bits.

(** Unsigned arithmetic is arithmetic modulo [2 ^ 64]. *)
Definition wrap (z : Z) : Z := z mod size_modulus.

(** The values a [std::size_t] can hold. *)
Definition is_size_t (z : Z) : Prop := 0 <= z < size_modulus.

(** ** [detail::next_power_of_two] *)

Module detail.

(** [constexpr std::size_t next_power_of_two(value, start = 1)]:
    [return start > value ? start : next_power_of_two(value, start * 2);]

    The recursion of the source is not structural, so the embedding counts
    the nested calls: [fuel] is the number of calls that may still be made,
    and [None] says that they were used up before a call returned. *)
Fixpoint next_power_of_two_fuel (fuel : nat) (value start : Z) : option Z :=
  match fuel with
  | O => None
  | S fuel' =>
      if start >? value then Some start
      else next_power_of_two_fuel fuel' value (wrap (start * 2))
  end.

(** After [size_bits] doublings the accumulator has wrapped to [0] and stays
    there, so [size_bits + 1] calls decide every input
    (lemma [next_power_of_two_budget] below). *)
Definition recursion_budget : nat := 65.

(** The call with the default argument [start = 1]. *)
Definition next_power_of_two (value : Z) : option Z :=
  next_power_of_two_fuel recursion_budget value 1.

(** The call [next_power_of_two(value, start)] never returns. *)
Definition diverges (value start : Z) : Prop :=
  forall fuel, next_power_of_two_fuel fuel value start = None.

(** The call [next_power_of_two(value, start)] returns [r]. *)
Definition returns (value start r : Z) : Prop :=
  exists fuel, next_power_of_two_fuel fuel value start = Some r.

End detail.

(** [z] is a power of two. *)
Definition is_power_of_two (z : Z) : Prop := exists k, 0 <= k /\ z = 2 ^ k.

(** The exponent of the first power of two strictly above [value]. *)
Definition exponent_above (value : Z) : Z := Z.log2_up (value + 1).

(** ** The class template [mode_descriptor] *)

(** The template arguments, in the order of the template parameter list. *)
Record mode_descriptor : Set := template {
  Carriers : Z;
  FrameSymbols : Z;
  FicSymbols : Z;
  FrameFibs : Z;
  FrameCifs : Z;
  FrameDuration : Z;
  GuardDuration : Z;
  SymbolDuration : Z;
  NullDuration : Z
}.

(** Every template argument is a [std::size_t]. *)
Definition well_formed (m : mode_descriptor) : Prop :=
  is_size_t (Carriers m) /\ is_size_t (FrameSymbols m) /\
  is_size_t (FicSymbols m) /\ is_size_t (FrameFibs m) /\
  is_size_t (FrameCifs m) /\ is_size_t (FrameDuration m) /\
  is_size_t (GuardDuration m) /\ is_size_t (SymbolDuration m) /\
  is_size_t (NullDuration m).

(** The member constants ([std::integral_constant<std::size_t, ...>::value]),
    one definition per alias declaration of the struct. *)
Section Members.

Variable m : mode_descriptor.

Definition carriers : Z := Carriers m.

(** [FrameSymbols - 1]: the phase-reference symbol is stripped. *)
Definition frame_symbols : Z := wrap (FrameSymbols m - 1).

Definition fic_symbols : Z := FicSymbols m.

(** [frame_symbols::value - FicSymbols] *)
Definition msc_symbols : Z := wrap (frame_symbols - FicSymbols m).

Definition frame_fibs : Z := FrameFibs m.

Definition frame_cifs : Z := FrameCifs m.

(** [frame_fibs::value * 256 / frame_cifs::value]; a division by zero is
    not a constant expression.  The operands are not negative, so the
    division of [Z] is the truncating division of the source. *)
Definition fib_codeword_bits : option Z :=
  if frame_cifs =? 0 then None
  else Some (wrap (frame_fibs * 256) / frame_cifs).

(** [carriers::value * 2] *)
Definition symbol_bits : Z := wrap (carriers * 2).

(** [detail::next_power_of_two(carriers::value)], evaluated with at most
    [depth] nested calls. *)
Definition fft_length_within (depth : nat) : option Z :=
  detail.next_power_of_two_fuel depth carriers 1.

Definition fft_length : option Z := detail.next_power_of_two carriers.

Definition frame_duration : Z := FrameDuration m.

Definition guard_duration : Z := GuardDuration m.

Definition symbol_duration : Z := SymbolDuration m.

Definition null_duration : Z := NullDuration m.

End Members.

(** The values of all the member constants of one instantiation. *)
Record members : Set := Members {
  carriers_value : Z;
  frame_symbols_value : Z;
  fic_symbols_value : Z;
  msc_symbols_value : Z;
  frame_fibs_value : Z;
  frame_cifs_value : Z;
  fib_codeword_bits_value : Z;
  symbol_bits_value : Z;
  fft_length_value : Z;
  frame_duration_value : Z;
  guard_duration_value : Z;
  symbol_duration_value : Z;
  null_duration_value : Z
}.

(** A small error monad for the constant expressions that can be rejected. *)
Definition bind {A B : Type} (x : option A) (f : A -> option B) : option B :=
  match x with
  | Some a => f a
  | None => None
  end.

Notation "x <- e ;; k" := (bind e (fun x => k))
  (at level 61, e at next level, right associativity).

(** Instantiating the struct instantiates every alias declaration in it, in
    the order of the source; the instantiation is rejected when one of the
    constant expressions is.  [depth] bounds the nested [constexpr] calls. *)
Definition instantiate_within (depth : nat) (m : mode_descriptor) : option members :=
  fib <- fib_codeword_bits m ;;
  fft <- fft_length_within m depth ;;
  Some (Members (carriers m) (frame_symbols m) (fic_symbols m) (msc_symbols m)
          (frame_fibs m) (frame_cifs m) fib (symbol_bits m) fft
          (frame_duration m) (guard_duration m) (symbol_duration m)
          (null_duration m)).

Definition instantiate (m : mode_descriptor) : option members :=
  instantiate_within detail.recursion_budget m.

(** ** The four standardized descriptors *)

Definition mode_1 : mode_descriptor := template 1536 76 3 12 4 96000 246 1000 1297.

Definition mode_2 : mode_descriptor := template 384 76 3 3 1 24000 62 250 324.

Definition mode_3 : mode_descriptor := template 192 153 8 4 1 24000 31 125 168.

Definition mode_4 : mode_descriptor := template 768 76 3 6 2 48000 123 500 648.

Definition standard_modes : list mode_descriptor := [mode_1; mode_2; mode_3; mode_4].

(** Modelled from the spec: the enumeration of the transmission modes
    ([types/transmission_mode.h], included by the header but not part of the
    sources at hand) and the selection of a descriptor by its mode.  The spec
    gives the enumeration exactly four variants and makes [lookup] a total
    function from them to the primary records; the records themselves are
    the descriptors [mode_1] .. [mode_4] of the source. *)
Inductive TransmissionMode : Set :=
| Mode1
| Mode2
| Mode3
| Mode4.

(** Modelled from the spec: [lookup(mode: TransmissionMode) -> PrimaryParameters],
    the free function from a mode to its record, which is missing from the
    sources at hand. *)
Definition lookup (mode : TransmissionMode) : mode_descriptor :=
  match mode with
  | Mode1 => mode_1
  | Mode2 => mode_2
  | Mode3 => mode_3
  | Mode4 => mode_4
  end.

(** Every member constant of an instantiation is a [std::size_t]. *)
Definition members_are_size_t (d : members) : Prop :=
  is_size_t (carriers_value d) /\ is_size_t (frame_symbols_value d) /\
  is_size_t (fic_symbols_value d) /\ is_size_t (msc_symbols_value d) /\
  is_size_t (frame_fibs_value d) /\ is_size_t (frame_cifs_value d) /\
  is_size_t (fib_codeword_bits_value d) /\ is_size_t (symbol_bits_value d) /\
  is_size_t (fft_length_value d) /\ is_size_t (frame_duration_value d) /\
  is_size_t (guard_duration_value d) /\ is_size_t (symbol_duration_value d) /\
  is_size_t (null_duration_value d).

(** ** The evaluation of an instantiation, step by step *)

(** The members of an instantiation, given the two constants whose
    expressions can be rejected. *)
Definition members_of (m : mode_descriptor) (fib fft : Z) : members :=
  Members (carriers m) (frame_symbols m) (fic_symbols m) (msc_symbols m)
    (frame_fibs m) (frame_cifs m) fib (symbol_bits m) fft
    (frame_duration m) (guard_duration m) (symbol_duration m)
    (null_duration m).

(** What an evaluation holds at each moment: the descriptor before anything
    is evaluated; inside a call [next_power_of_two(value, start)], the
    descriptor, the quotient of [fib_codeword_bits] already evaluated and the
    two arguments of the call; at the end the members, or the rejection. *)
Inductive state : Set :=
| Start (m : mode_descriptor)
| Doubling (m : mode_descriptor) (fib value start : Z)
| Accepted (d : members)
| Rejected.

(** One step of the evaluation: the division of [fib_codeword_bits]
    (rejected on a zero divisor) followed by the first call
    [next_power_of_two(carriers::value, 1)], and then one call of the
    recursion per step: [start > value ? start : next_power_of_two(value,
    start * 2)]. *)
Inductive step : state -> state -> Prop :=
| step_division_by_zero (m : mode_descriptor) :
    frame_cifs m = 0 ->
    step (Start m) Rejected
| step_divide (m : mode_descriptor) :
    frame_cifs m <> 0 ->
    step (Start m)
      (Doubling m (wrap (frame_fibs m * 256) / frame_cifs m) (carriers m) 1)
| step_return (m : mode_descriptor) (fib value start : Z) :
    start > value ->
    step (Doubling m fib value start) (Accepted (members_of m fib start))
| step_double (m : mode_descriptor) (fib value start : Z) :
    start <= value ->
    step (Doubling m fib value start)
      (Doubling m fib value (wrap (start * 2))).

(** An evaluation of [n] steps. *)
Inductive run : nat -> state -> state -> Prop :=
| run_done (s : state) : run 0 s s
| run_step (n : nat) (s s' s'' : state) :
    step s s' -> run n s' s'' -> run (S n) s s''.

(** The states in which an evaluation has ended. *)
Definition final (s : state) : Prop :=
  match s with
  | Accepted _ | Rejected => True
  | Start _ | Doubling _ _ _ _ => False
  end.

(** What a state may hold in an evaluation of the descriptor [m]: the
    descriptor itself, unchanged; a call on [carriers m]; members computed
    from [m]; a rejection only for a zero divisor. *)
Definition evaluates (m : mode_descriptor) (s : state) : Prop :=
  match s with
  | Start m' => m' = m
  | Doubling m' fib value _ =>
      m' = m /\ value = carriers m /\
      fib_codeword_bits m = Some fib
  | Accepted d =>
      exists fib fft, fib_codeword_bits m = Some fib /\ d = members_of m fib fft
  | Rejected => fib_codeword_bits m = None
  end.

(** * Properties *)

(** ** Arithmetic of [std::size_t] *)

Lemma size_modulus_eq : size_modulus = 18446744073709551616.
Proof. reflexivity. Qed.

Lemma wrap_small (z : Z) : is_size_t z -> wrap z = z.
Proof. intros H. apply Z.mod_small. exact H. Qed.

Lemma wrap_is_size_t (z : Z) : is_size_t (wrap z).
Proof.
  unfold wrap, is_size_t. apply Z.mod_pos_bound.
  rewrite size_modulus_eq. lia.
Qed.

Lemma pow2_is_size_t (k : Z) : 0 <= k <= 63 -> is_size_t (2 ^ k).
Proof.
  intros Hk. unfold is_size_t, size_modulus, size_bits. split.
  - apply Z.pow_nonneg. lia.
  - apply Z.pow_lt_mono_r; lia.
Qed.

Lemma pow2_double (k : Z) : 0 <= k -> 2 ^ k * 2 = 2 ^ (k + 1).
Proof. intros Hk. rewrite Z.pow_add_r, Z.pow_1_r by lia. reflexivity. Qed.

(** Doubling a power of two below [2 ^ 63] does not wrap. *)
Lemma wrap_double_pow2 (k : Z) : 0 <= k <= 62 -> wrap (2 ^ k * 2) = 2 ^ (k + 1).
Proof.
  intros Hk. rewrite pow2_double by lia.
  apply wrap_small, pow2_is_size_t. lia.
Qed.

(** Once the doubling has wrapped to [0], it stays there. *)
Lemma wrap_double_zero : wrap (0 * 2) = 0.
Proof. reflexivity. Qed.

(** ** The doubling recursion *)

Module detail_facts.

Import detail.

Lemma fuel_step (fuel : nat) (value start : Z) :
  next_power_of_two_fuel (S fuel) value start =
  if start >? value then Some start
  else next_power_of_two_fuel fuel value (wrap (start * 2)).
Proof. reflexivity. Qed.

(** A call that returned keeps its result when more calls are allowed. *)
Lemma fuel_monotone (fuel fuel' : nat) (value start r : Z) :
  (fuel <= fuel')%nat ->
  next_power_of_two_fuel fuel value start = Some r ->
  next_power_of_two_fuel fuel' value start = Some r.
Proof.
  revert fuel' start. induction fuel as [|fuel IH]; intros fuel' start Hle H.
  - discriminate H.
  - destruct fuel' as [|fuel']; [lia|].
    rewrite fuel_step in *. destruct (start >? value).
    + exact H.
    + apply IH; [lia | exact H].
Qed.

(** The result does not depend on the number of calls allowed. *)
Lemma fuel_deterministic (f1 f2 : nat) (value start r1 r2 : Z) :
  next_power_of_two_fuel f1 value start = Some r1 ->
  next_power_of_two_fuel f2 value start = Some r2 ->
  r1 = r2.
Proof.
  intros H1 H2.
  apply (fuel_monotone f1 (Nat.max f1 f2)) in H1; [|lia].
  apply (fuel_monotone f2 (Nat.max f1 f2)) in H2; [|lia].
  congruence.
Qed.

Lemma returns_deterministic (value start r1 r2 : Z) :
  returns value start r1 -> returns value start r2 -> r1 = r2.
Proof. intros [f1 H1] [f2 H2]. exact (fuel_deterministic _ _ _ _ _ _ H1 H2). Qed.

(** From the accumulator [2 ^ (e - n)], with [2 ^ e] the first power of two
    above [value], the recursion doubles [n] times and returns [2 ^ e]. *)
Lemma doubling_reaches (n : nat) :
  forall (e value : Z) (fuel : nat),
    0 <= e <= 63 ->
    Z.of_nat n <= e ->
    (0 < e -> 2 ^ (e - 1) <= value) ->
    value < 2 ^ e ->
    (n < fuel)%nat ->
    next_power_of_two_fuel fuel value (2 ^ (e - Z.of_nat n)) = Some (2 ^ e).
Proof.
  induction n as [|n IH]; intros e value fuel He Hn Hlow Hup Hfuel;
    (destruct fuel as [|fuel]; [lia|]); rewrite fuel_step.
  - replace (e - Z.of_nat 0) with e by lia.
    destruct (Z.gtb_spec (2 ^ e) value) as [_|Hc]; [reflexivity | lia].
  - assert (Hle : 2 ^ (e - Z.of_nat (S n)) <= 2 ^ (e - 1))
      by (apply Z.pow_le_mono_r; lia).
    destruct (Z.gtb_spec (2 ^ (e - Z.of_nat (S n))) value) as [Hc|_]; [lia|].
    rewrite wrap_double_pow2 by lia.
    replace (e - Z.of_nat (S n) + 1) with (e - Z.of_nat n) by lia.
    apply IH; lia.
Qed.

Lemma exponent_above_bounds (value : Z) :
  0 <= value < 2 ^ 63 ->
  0 <= exponent_above value <= 63 /\
  (0 < exponent_above value -> 2 ^ (exponent_above value - 1) <= value) /\
  value < 2 ^ exponent_above value.
Proof.
  intros Hv. unfold exponent_above.
  assert (H0 : 0 <= Z.log2_up (value + 1)) by apply Z.log2_up_nonneg.
  assert (H63 : Z.log2_up (value + 1) <= 63)
    by (apply Z.log2_up_le_pow2; lia).
  destruct (Z.eq_dec value 0) as [->|Hnz].
  - cbn. lia.
  - pose proof (Z.log2_up_spec (value + 1) ltac:(lia)) as [Hl Hu].
    rewrite <- Z.sub_1_r in Hl. lia.
Qed.

(** What the recursion computes: for every [value] below [2 ^ 63], the first
    power of two strictly above [value], within [exponent + 1] calls. *)
Lemma next_power_of_two_fuel_spec (value : Z) (fuel : nat) :
  0 <= value < 2 ^ 63 ->
  (Z.to_nat (exponent_above value) < fuel)%nat ->
  next_power_of_two_fuel fuel value 1 = Some (2 ^ exponent_above value).
Proof.
  intros Hv Hfuel.
  destruct (exponent_above_bounds value Hv) as (He & Hlow & Hup).
  pose proof (doubling_reaches (Z.to_nat (exponent_above value))
                (exponent_above value) value fuel He) as H.
  rewrite Z2Nat.id, Z.sub_diag in H by lia.
  apply H; auto; lia.
Qed.

Lemma next_power_of_two_spec (value : Z) :
  0 <= value < 2 ^ 63 ->
  next_power_of_two value = Some (2 ^ exponent_above value).
Proof.
  intros Hv. apply next_power_of_two_fuel_spec; [exact Hv|].
  destruct (exponent_above_bounds value Hv) as (He & _).
  unfold recursion_budget. lia.
Qed.

(** The result is strictly above [value], and no power of two strictly
    above [value] is smaller. *)
Lemma next_power_of_two_least (value r : Z) :
  0 <= value < 2 ^ 63 ->
  next_power_of_two value = Some r ->
  value < r /\ forall p, is_power_of_two p -> value < p -> r <= p.
Proof.
  intros Hv Hr. rewrite next_power_of_two_spec in Hr by exact Hv.
  injection Hr as <-.
  destruct (exponent_above_bounds value Hv) as (He & Hlow & Hup).
  split; [exact Hup|]. intros p (j & Hj & ->) Hp.
  apply Z.pow_le_mono_r; [lia|].
  destruct (Z_le_gt_dec (exponent_above value) j) as [H|H]; [exact H|].
  assert (2 ^ j <= 2 ^ (exponent_above value - 1))
    by (apply Z.pow_le_mono_r; lia).
  lia.
Qed.

(** From [2 ^ 63] on, no accumulator ever exceeds [value]: the accumulator is
    a power of two up to [2 ^ 63], or [0] once the doubling has wrapped. *)
Lemma doubling_never_exceeds (fuel : nat) :
  forall (value k : Z),
    2 ^ 63 <= value -> 0 <= k <= 64 ->
    next_power_of_two_fuel fuel value (wrap (2 ^ k)) = None.
Proof.
  induction fuel as [|fuel IH]; intros value k Hv Hk; [reflexivity|].
  rewrite fuel_step.
  destruct (Z.eq_dec k 64) as [->|Hne].
  - change (wrap (2 ^ 64)) with 0.
    destruct (Z.gtb_spec 0 value) as [Hc|_]; [lia|].
    rewrite wrap_double_zero. exact (IH value 64 Hv ltac:(lia)).
  - rewrite wrap_small by (apply pow2_is_size_t; lia).
    assert (Hle : 2 ^ k <= 2 ^ 63) by (apply Z.pow_le_mono_r; lia).
    destruct (Z.gtb_spec (2 ^ k) value) as [Hc|_]; [lia|].
    rewrite pow2_double by lia.
    apply IH; lia.
Qed.

Lemma next_power_of_two_diverges (value : Z) :
  2 ^ 63 <= value -> diverges value 1.
Proof.
  intros Hv fuel. exact (doubling_never_exceeds fuel value 0 Hv ltac:(lia)).
Qed.

(** [recursion_budget] calls are enough: a call that returns at all returns
    within the budget. *)
Lemma next_power_of_two_budget (value r : Z) :
  returns value 1 r -> next_power_of_two value = Some r.
Proof.
  intros [fuel H].
  destruct (Z_lt_le_dec value 0) as [Hneg|Hpos].
  - unfold next_power_of_two, recursion_budget. rewrite fuel_step.
    destruct fuel as [|fuel]; [discriminate H|]. rewrite fuel_step in H.
    destruct (Z.gtb_spec 1 value) as [_|Hc]; [exact H | lia].
  - destruct (Z_lt_le_dec value (2 ^ 63)) as [Hlt|Hge].
    + rewrite next_power_of_two_spec by lia. f_equal.
      apply (fuel_deterministic recursion_budget fuel value 1); [|exact H].
      apply next_power_of_two_spec. lia.
    + rewrite (next_power_of_two_diverges value Hge fuel) in H. discriminate H.
Qed.

End detail_facts.

(** ** [detail::next_power_of_two]: results *)

Import detail.

Ltac size_t_crush :=
  unfold well_formed, is_size_t; rewrite ?size_modulus_eq; cbn; lia.

Example next_power_of_two_1536 : next_power_of_two 1536 = Some 2048.
Proof. reflexivity. Qed.

Example next_power_of_two_2 : next_power_of_two 2 = Some 4.
Proof. reflexivity. Qed.

Example next_power_of_two_3 : next_power_of_two 3 = Some 4.
Proof. reflexivity. Qed.

Example next_power_of_two_largest :
  next_power_of_two (2 ^ 63 - 1) = Some (2 ^ 63).
Proof. vm_compute. reflexivity. Qed.

Example next_power_of_two_rejected : next_power_of_two (2 ^ 63) = None.
Proof. vm_compute. reflexivity. Qed.

Example fib_codeword_bits_zero_cifs :
  fib_codeword_bits (template 1536 76 3 12 0 96000 246 1000 1297) = None.
Proof. reflexivity. Qed.

(** On a power of two [2 ^ k] the comparison [start > value] fails at
    [start = 2 ^ k], so the recursion doubles once more. *)
Lemma next_power_of_two_of_pow2 (k : Z) :
  0 <= k <= 62 -> next_power_of_two (2 ^ k) = Some (2 ^ (k + 1)).
Proof.
  intros Hk.
  pose proof (detail_facts.doubling_reaches (Z.to_nat (k + 1)) (k + 1) (2 ^ k)
                recursion_budget) as H.
  rewrite Z2Nat.id in H by lia.
  replace (k + 1 - (k + 1)) with 0 in H by lia.
  replace (k + 1 - 1) with k in H by lia.
  apply H; unfold recursion_budget; try lia.
  apply Z.pow_lt_mono_r; lia.
Qed.

(** C1, as the code has it: for every [n] that is an exact power of two
    below [2 ^ 63], [next_power_of_two(n)] returns [2 * n], the next power
    of two strictly above [n], and not [n] itself. *)
Theorem next_power_of_two_doubles_power_of_two (n : Z) :
  is_power_of_two n -> n < 2 ^ 63 ->
  next_power_of_two n = Some (2 * n) /\ 2 * n <> n.
Proof.
  intros (k & Hk & ->) Hlt.
  assert (Hk62 : k <= 62).
  { destruct (Z_le_gt_dec k 62) as [H|H]; [exact H|].
    assert (2 ^ 63 <= 2 ^ k) by (apply Z.pow_le_mono_r; lia). lia. }
  assert (Hpos : 0 < 2 ^ k) by (apply Z.pow_pos_nonneg; lia).
  split; [|lia].
  rewrite next_power_of_two_of_pow2 by lia.
  rewrite <- pow2_double by lia. f_equal. lia.
Qed.

Lemma next_power_of_two_doubles_power_of_two_witness :
  is_power_of_two 1024 /\ 1024 < 2 ^ 63 /\
  next_power_of_two 1024 = Some 2048.
Proof.
  assert (Hp : is_power_of_two 1024) by (exists 10; split; [lia | reflexivity]).
  assert (Hlt : 1024 < 2 ^ 63) by reflexivity.
  split; [exact Hp | split; [exact Hlt|]].
  exact (proj1 (next_power_of_two_doubles_power_of_two 1024 Hp Hlt)).
Defined.

(** C1 fails as stated: [1] is a power of two and [next_power_of_two(1)]
    is [2]. *)
Lemma next_power_of_two_of_one :
  is_power_of_two 1 /\ next_power_of_two 1 = Some 2 /\ Some 2 <> Some 1.
Proof.
  split; [exists 0; split; [lia | reflexivity]|].
  split; [reflexivity | discriminate].
Qed.

(** C6: for every [n] with [0 <= n < 2 ^ 63], [next_power_of_two(n)]
    returns a power of two that is greater than or equal to [n]. *)
Theorem next_power_of_two_is_power_of_two_above (n : Z) :
  0 <= n < 2 ^ 63 ->
  exists r, next_power_of_two n = Some r /\ is_power_of_two r /\ n <= r.
Proof.
  intros Hn.
  destruct (detail_facts.exponent_above_bounds n Hn) as (He & _ & Hup).
  exists (2 ^ exponent_above n). split; [|split].
  - apply detail_facts.next_power_of_two_spec. exact Hn.
  - exists (exponent_above n). split; [lia | reflexivity].
  - lia.
Qed.

Lemma next_power_of_two_is_power_of_two_above_witness :
  0 <= 1536 < 2 ^ 63 /\
  exists r, next_power_of_two 1536 = Some r /\ is_power_of_two r /\ 1536 <= r.
Proof.
  assert (Hn : 0 <= 1536 < 2 ^ 63) by (split; [lia | reflexivity]).
  split; [exact Hn|].
  exact (next_power_of_two_is_power_of_two_above 1536 Hn).
Defined.

(** C7: [next_power_of_two(0)] is [1]; the first call already returns,
    since its accumulator [1] exceeds [0]. *)
Theorem next_power_of_two_zero :
  next_power_of_two 0 = Some 1 /\ next_power_of_two_fuel 1 0 1 = Some 1.
Proof. split; reflexivity. Qed.

(** C9, as the code has it: for every [n] below [2 ^ 63] the recursion
    returns within 64 calls; from [2 ^ 63] on the doubling wraps to [0]
    before any accumulator exceeds [n], and the recursion never returns. *)
Theorem next_power_of_two_terminates_below_top (n : Z) :
  is_size_t n ->
  (n < 2 ^ 63 ->
   exists fuel r, (fuel <= 64)%nat /\ next_power_of_two_fuel fuel n 1 = Some r) /\
  (2 ^ 63 <= n -> diverges n 1).
Proof.
  intros [Hn0 _]. split.
  - intros Hlt.
    destruct (detail_facts.exponent_above_bounds n (conj Hn0 Hlt)) as (He & _).
    exists (S (Z.to_nat (exponent_above n))), (2 ^ exponent_above n).
    split; [lia|].
    apply detail_facts.next_power_of_two_fuel_spec; lia.
  - apply detail_facts.next_power_of_two_diverges.
Qed.

Lemma next_power_of_two_terminates_below_top_witness :
  is_size_t 768 /\
  exists fuel r, (fuel <= 64)%nat /\ next_power_of_two_fuel fuel 768 1 = Some r.
Proof.
  assert (Hn : is_size_t 768) by size_t_crush.
  split; [exact Hn|].
  exact (proj1 (next_power_of_two_terminates_below_top 768 Hn) eq_refl).
Defined.

(** C9 fails as stated: [2 ^ 63] is within the claimed range, and the call
    [next_power_of_two(2 ^ 63)] never returns. *)
Lemma next_power_of_two_diverges_at_top :
  is_size_t (2 ^ 63) /\ 2 ^ 63 <= 2 ^ 63 /\ diverges (2 ^ 63) 1.
Proof.
  split; [size_t_crush|]. split; [lia|].
  apply detail_facts.next_power_of_two_diverges. lia.
Qed.

(** ** The member constants *)

Lemma frame_symbols_mod (m : mode_descriptor) :
  frame_symbols m = (FrameSymbols m - 1) mod 2 ^ 64.
Proof. reflexivity. Qed.

(** The two subtractions compose into one subtraction modulo [2 ^ 64]. *)
Lemma msc_symbols_mod (m : mode_descriptor) :
  msc_symbols m = (FrameSymbols m - 1 - FicSymbols m) mod 2 ^ 64.
Proof.
  unfold msc_symbols, frame_symbols, wrap, size_modulus, size_bits.
  apply Zminus_mod_idemp_l.
Qed.

Lemma fft_length_budget (m : mode_descriptor) :
  fft_length m = fft_length_within m recursion_budget.
Proof. reflexivity. Qed.

Lemma fib_codeword_bits_some (m : mode_descriptor) :
  FrameCifs m <> 0 ->
  fib_codeword_bits m = Some (wrap (FrameFibs m * 256) / FrameCifs m).
Proof.
  intros Hc. unfold fib_codeword_bits, frame_cifs, frame_fibs.
  destruct (Z.eqb_spec (FrameCifs m) 0) as [H|_]; [contradiction | reflexivity].
Qed.

(** The instantiation is accepted exactly on the grounds of the divisor and
    of the recursion: no other member constant is examined. *)
Lemma instantiate_within_some (depth : nat) (m : mode_descriptor) (fft : Z) :
  FrameCifs m <> 0 ->
  next_power_of_two_fuel depth (Carriers m) 1 = Some fft ->
  instantiate_within depth m =
  Some (Members (carriers m) (frame_symbols m) (fic_symbols m) (msc_symbols m)
          (frame_fibs m) (frame_cifs m)
          (wrap (FrameFibs m * 256) / FrameCifs m) (symbol_bits m) fft
          (frame_duration m) (guard_duration m) (symbol_duration m)
          (null_duration m)).
Proof.
  intros Hc Hfft. unfold instantiate_within, fft_length_within, carriers.
  rewrite fib_codeword_bits_some by exact Hc. cbn [bind].
  rewrite Hfft. reflexivity.
Qed.

Lemma instantiate_some (m : mode_descriptor) :
  FrameCifs m <> 0 -> 0 <= Carriers m < 2 ^ 63 ->
  instantiate m =
  Some (Members (carriers m) (frame_symbols m) (fic_symbols m) (msc_symbols m)
          (frame_fibs m) (frame_cifs m)
          (wrap (FrameFibs m * 256) / FrameCifs m) (symbol_bits m)
          (2 ^ exponent_above (Carriers m))
          (frame_duration m) (guard_duration m) (symbol_duration m)
          (null_duration m)).
Proof.
  intros Hc Hcar. apply instantiate_within_some; [exact Hc|].
  apply detail_facts.next_power_of_two_spec. exact Hcar.
Qed.

(** An accepted instantiation fixes every member apart from [fft_length],
    which is whatever the recursion returned. *)
Lemma instantiate_within_inv (depth : nat) (m : mode_descriptor) (d : members) :
  instantiate_within depth m = Some d ->
  exists fft,
    next_power_of_two_fuel depth (Carriers m) 1 = Some fft /\
    FrameCifs m <> 0 /\
    d = Members (carriers m) (frame_symbols m) (fic_symbols m) (msc_symbols m)
          (frame_fibs m) (frame_cifs m)
          (wrap (FrameFibs m * 256) / FrameCifs m) (symbol_bits m) fft
          (frame_duration m) (guard_duration m) (symbol_duration m)
          (null_duration m).
Proof.
  unfold instantiate_within, fft_length_within, fib_codeword_bits,
    frame_cifs, frame_fibs, carriers at 1.
  destruct (Z.eqb_spec (FrameCifs m) 0) as [H0|Hnz]; cbn [bind]; [discriminate|].
  destruct (next_power_of_two_fuel depth (Carriers m) 1) as [fft|] eqn:Hfft;
    cbn [bind]; [|discriminate].
  intros [= <-]. exists fft. repeat split. exact Hnz.
Qed.

(** With the budget or more, the depth allowed makes no difference, also to
    a rejection. *)
Lemma instantiate_within_budget (depth : nat) (m : mode_descriptor) :
  (recursion_budget <= depth)%nat -> instantiate_within depth m = instantiate m.
Proof.
  intros Hd. unfold instantiate, instantiate_within, fft_length_within.
  destruct (fib_codeword_bits m) as [fib|]; cbn [bind]; [|reflexivity].
  destruct (next_power_of_two_fuel recursion_budget (carriers m) 1) as [r|] eqn:Hb.
  - rewrite (detail_facts.fuel_monotone _ depth _ _ _ Hd Hb). reflexivity.
  - destruct (next_power_of_two_fuel depth (carriers m) 1) as [r|] eqn:Hr;
      [|reflexivity].
    assert (Hret : returns (carriers m) 1 r) by (exists depth; exact Hr).
    apply detail_facts.next_power_of_two_budget in Hret.
    unfold next_power_of_two in Hret. congruence.
Qed.

(** ** The four standardized modes *)

(** C2: the member constants of the four standardized descriptors are the
    values of the concrete scenarios: for mode 1, [frame_symbols = 75],
    [msc_symbols = 72], [fib_codeword_bits = 768], [symbol_bits = 3072],
    [fft_length = 2048], and likewise for modes 2, 3 and 4. *)
Theorem standard_modes_derived :
  instantiate mode_1 =
    Some (Members 1536 75 3 72 12 4 768 3072 2048 96000 246 1000 1297) /\
  instantiate mode_2 =
    Some (Members 384 75 3 72 3 1 768 768 512 24000 62 250 324) /\
  instantiate mode_3 =
    Some (Members 192 152 8 144 4 1 1024 384 256 24000 31 125 168) /\
  instantiate mode_4 =
    Some (Members 768 75 3 72 6 2 768 1536 1024 48000 123 500 648).
Proof. repeat split; vm_compute; reflexivity. Qed.

(** C3: [lookup] is defined on each of the four variants of
    [TransmissionMode], returns a record and no error, and the record has
    exactly the literal values of the table of primary parameters. *)
Theorem lookup_table (mode : TransmissionMode) :
  lookup mode =
  match mode with
  | Mode1 => template 1536 76 3 12 4 96000 246 1000 1297
  | Mode2 => template 384 76 3 3 1 24000 62 250 324
  | Mode3 => template 192 153 8 4 1 24000 31 125 168
  | Mode4 => template 768 76 3 6 2 48000 123 500 648
  end.
Proof. destruct mode; reflexivity. Qed.

(** C4: for each of the four standardized descriptors the instantiation is
    accepted, and [msc_symbols] is [FrameSymbols - 1 - FicSymbols] over the
    integers (no wrap-around), which is not negative. *)
Theorem standard_modes_instantiate :
  Forall (fun m =>
            exists d, instantiate m = Some d /\
                      msc_symbols_value d = FrameSymbols m - 1 - FicSymbols m /\
                      0 <= msc_symbols_value d)
         standard_modes.
Proof.
  repeat constructor; eexists; (split; [vm_compute; reflexivity|]); cbn; lia.
Qed.

(** ** Records outside the standard *)

(** C5, as the code has it: for every well-formed record whose
    [FrameCifs] is not zero and does not divide [FrameFibs * 256] (with
    [FrameFibs] below [2 ^ 56], so that the product does not wrap),
    [fib_codeword_bits] is the quotient rounded down, strictly below the
    exact ratio, and the instantiation is accepted with that value when
    [Carriers] is below [2 ^ 63]: no error is signalled. *)
Theorem fib_codeword_bits_truncates (m : mode_descriptor) :
  well_formed m ->
  FrameFibs m < 2 ^ 56 ->
  FrameCifs m <> 0 ->
  (FrameFibs m * 256) mod FrameCifs m <> 0 ->
  fib_codeword_bits m = Some (FrameFibs m * 256 / FrameCifs m) /\
  FrameFibs m * 256 / FrameCifs m * FrameCifs m < FrameFibs m * 256 /\
  (Carriers m < 2 ^ 63 ->
   exists d, instantiate m = Some d /\
             fib_codeword_bits_value d = FrameFibs m * 256 / FrameCifs m).
Proof.
  intros (Hcar & _ & _ & Hfib & Hcif & _) Hsmall Hnz Hrem.
  unfold is_size_t in *. rewrite size_modulus_eq in *.
  assert (Hw : wrap (FrameFibs m * 256) = FrameFibs m * 256)
    by (apply wrap_small; unfold is_size_t; rewrite size_modulus_eq; lia).
  split; [|split].
  - rewrite fib_codeword_bits_some, Hw by exact Hnz. reflexivity.
  - pose proof (Z.div_mod (FrameFibs m * 256) (FrameCifs m) Hnz) as Hdm.
    pose proof (Z.mod_pos_bound (FrameFibs m * 256) (FrameCifs m) ltac:(lia)).
    lia.
  - intros Hlt. eexists. split.
    + apply instantiate_some; [exact Hnz | lia].
    + cbn [fib_codeword_bits_value]. rewrite Hw. reflexivity.
Qed.

Lemma fib_codeword_bits_truncates_witness :
  well_formed (template 1536 76 3 1 3 96000 246 1000 1297) /\
  fib_codeword_bits (template 1536 76 3 1 3 96000 246 1000 1297) = Some 85.
Proof.
  assert (Hwf : well_formed (template 1536 76 3 1 3 96000 246 1000 1297))
    by size_t_crush.
  split; [exact Hwf|].
  exact (proj1 (fib_codeword_bits_truncates
                  (template 1536 76 3 1 3 96000 246 1000 1297) Hwf
                  ltac:(reflexivity) ltac:(cbn; lia) ltac:(cbn; lia))).
Defined.

(** C5 fails as stated: with [FrameFibs = 1] and [FrameCifs = 3] the
    product [256] leaves the remainder [1], and the instantiation is
    accepted with [fib_codeword_bits = 85]. *)
Lemma non_dividing_cifs_accepted :
  well_formed (template 1536 76 3 1 3 96000 246 1000 1297) /\
  (1 * 256) mod 3 = 1 /\
  instantiate (template 1536 76 3 1 3 96000 246 1000 1297) =
    Some (Members 1536 75 3 72 1 3 85 3072 2048 96000 246 1000 1297).
Proof.
  split; [size_t_crush|]. split; vm_compute; reflexivity.
Qed.

(** Two evaluations that return member values return the same ones,
    whatever recursion depth each of the two is allowed. *)
Lemma instantiate_deterministic
  (m : mode_descriptor) (depth1 depth2 : nat) (d1 d2 : members) :
  instantiate_within depth1 m = Some d1 ->
  instantiate_within depth2 m = Some d2 ->
  d1 = d2.
Proof.
  intros H1 H2.
  apply instantiate_within_inv in H1 as (fft1 & Hf1 & _ & ->).
  apply instantiate_within_inv in H2 as (fft2 & Hf2 & _ & ->).
  rewrite (detail_facts.fuel_deterministic _ _ _ _ _ _ Hf1 Hf2). reflexivity.
Qed.

(** ** The evaluation, step by step *)

(** Every state has at most one successor: the two rules of [Start] and the
    two rules of [Doubling] exclude each other. *)
Lemma step_deterministic (s s1 s2 : state) :
  step s s1 -> step s s2 -> s1 = s2.
Proof.
  intros H1 H2.
  destruct H1; inversion H2; subst; try reflexivity; try contradiction; lia.
Qed.

Lemma final_stuck (s s' : state) : final s -> step s s' -> False.
Proof. intros Hf Hs. destruct Hs; exact Hf. Qed.

Lemma run_final (n : nat) (s s' : state) :
  final s -> run n s s' -> n = O /\ s' = s.
Proof.
  intros Hf Hr. destruct Hr as [s|n s s1 s2 Hs _]; [split; reflexivity|].
  destruct (final_stuck _ _ Hf Hs).
Qed.

Lemma run_deterministic (k : nat) (s s1 s2 : state) :
  run k s s1 -> run k s s2 -> s1 = s2.
Proof.
  intros H1. revert s2.
  induction H1 as [s|n s s' s'' Hs _ IH]; intros s2 H2; inversion H2; subst.
  - reflexivity.
  - apply IH. rewrite (step_deterministic _ _ _ Hs H0). assumption.
Qed.

(** Once an evaluation has ended, every evaluation from the same state is
    an initial part of it. *)
Lemma run_prefix (n : nat) (s f : state) :
  run n s f -> final f ->
  forall (k : nat) (s' : state),
    run k s s' -> (k <= n)%nat /\ run (n - k) s' f.
Proof.
  intros Hr Hf. induction Hr as [s|n s s1 s2 Hs Hr IH]; intros k s' Hk.
  - destruct (run_final _ _ _ Hf Hk) as [-> ->]. split; [lia | constructor].
  - inversion Hk; subst.
    + split; [lia|]. cbn. exact (run_step _ _ _ _ Hs Hr).
    + rewrite (step_deterministic _ _ _ H Hs) in H0.
      destruct (IH Hf _ _ H0) as [Hle Hrest]. split; [lia | exact Hrest].
Qed.

(** No step changes the descriptor, and what a step adds is computed from
    it. *)
Lemma step_evaluates (m : mode_descriptor) (s s' : state) :
  evaluates m s -> step s s' -> evaluates m s'.
Proof.
  intros He Hs. destruct Hs as [m' H0|m' Hnz|m' fib value start _|m' fib value start _];
    cbn in He |- *.
  - subst m'. unfold fib_codeword_bits. rewrite H0. reflexivity.
  - subst m'. repeat split. apply fib_codeword_bits_some. exact Hnz.
  - destruct He as (-> & _ & Hfib). exists fib, start. split; [exact Hfib | reflexivity].
  - exact He.
Qed.

Lemma run_evaluates (m : mode_descriptor) (k : nat) (s s' : state) :
  evaluates m s -> run k s s' -> evaluates m s'.
Proof.
  intros He Hr. induction Hr as [s|n s s1 s2 Hs _ IH]; [exact He|].
  apply IH. exact (step_evaluates m _ _ He Hs).
Qed.

(** The steps of a call are the nested calls of [next_power_of_two_fuel]. *)
Lemma doubling_run_sound (n : nat) :
  forall (m : mode_descriptor) (fib value start : Z) (d : members),
    run n (Doubling m fib value start) (Accepted d) ->
    exists fft, next_power_of_two_fuel n value start = Some fft /\
                d = members_of m fib fft.
Proof.
  induction n as [|n IH]; intros m fib value start d Hr; inversion Hr; subst.
  rewrite detail_facts.fuel_step. inversion H0; subst.
  - destruct (run_final _ (Accepted _) _ I H1) as [_ [= ->]].
    exists start. split; [|reflexivity].
    destruct (Z.gtb_spec start value) as [_|Hc]; [reflexivity | lia].
  - destruct (Z.gtb_spec start value) as [Hc|_]; [lia|].
    exact (IH _ _ _ _ _ H1).
Qed.

Lemma doubling_run_complete (fuel : nat) :
  forall (m : mode_descriptor) (fib value start fft : Z),
    next_power_of_two_fuel fuel value start = Some fft ->
    exists n, (n <= fuel)%nat /\
              run n (Doubling m fib value start) (Accepted (members_of m fib fft)).
Proof.
  induction fuel as [|fuel IH]; intros m fib value start fft H; [discriminate H|].
  rewrite detail_facts.fuel_step in H.
  destruct (Z.gtb_spec start value) as [Hgt|Hle].
  - injection H as <-. exists 1%nat. split; [lia|].
    apply (run_step _ _ (Accepted (members_of m fib start))); [|constructor].
    apply step_return. lia.
  - destruct (IH m fib value _ fft H) as (n & Hn & Hr).
    exists (S n). split; [lia|].
    exact (run_step _ _ _ _ (step_double m fib value start Hle) Hr).
Qed.

(** The step-by-step evaluation accepts exactly what [instantiate_within]
    returns with some depth. *)
Lemma evaluation_adequate (m : mode_descriptor) (d : members) :
  (exists n, run n (Start m) (Accepted d)) <->
  (exists depth, instantiate_within depth m = Some d).
Proof.
  split.
  - intros [n Hr]. inversion Hr; subst. inversion H; subst.
    + destruct (run_final _ Rejected _ I H0) as [_ [=]].
    + destruct (doubling_run_sound _ _ _ _ _ _ H0) as (fft & Hfft & ->).
      exists n0. apply instantiate_within_some; assumption.
  - intros [depth Hd].
    apply instantiate_within_inv in Hd as (fft & Hfft & Hnz & ->).
    destruct (doubling_run_complete depth m
                (wrap (frame_fibs m * 256) / frame_cifs m) (carriers m) 1 fft Hfft)
      as (n & _ & Hr).
    exists (S n). exact (run_step _ _ _ _ (step_divide m Hnz) Hr).
Qed.

(** C8: two evaluations of the derivation on the same record go through
    the same states: after the same number of steps they are in the same
    state; when one has ended, the other is an initial part of it, so that
    two evaluations that end have the same outcome (the same members, or
    both the rejection) after the same number of steps; and the
    evaluation has no effect beyond its outcome: every state holds the
    record unchanged, and the outcome is computed from the record alone. *)
Theorem evaluation_deterministic
  (m : mode_descriptor) (k1 k2 : nat) (s1 s2 : state) :
  run k1 (Start m) s1 ->
  run k2 (Start m) s2 ->
  (k1 = k2 -> s1 = s2) /\
  (final s1 -> (k2 <= k1)%nat /\ run (k1 - k2) s2 s1) /\
  (final s1 -> final s2 -> s1 = s2 /\ k1 = k2) /\
  evaluates m s1.
Proof.
  intros H1 H2. split; [|split; [|split]].
  - intros ->. exact (run_deterministic _ _ _ _ H1 H2).
  - intros Hf. exact (run_prefix _ _ _ H1 Hf _ _ H2).
  - intros Hf1 Hf2.
    destruct (run_prefix _ _ _ H1 Hf1 _ _ H2) as [Hle Hrest].
    destruct (run_final _ _ _ Hf2 Hrest) as [Hk ->].
    split; [reflexivity | lia].
  - exact (run_evaluates m k1 (Start m) s1 eq_refl H1).
Qed.

Lemma evaluation_deterministic_witness :
  exists n,
    run n (Start mode_1)
      (Accepted (Members 1536 75 3 72 12 4 768 3072 2048 96000 246 1000 1297)) /\
    evaluates mode_1
      (Accepted (Members 1536 75 3 72 12 4 768 3072 2048 96000 246 1000 1297)).
Proof.
  destruct (proj2 (evaluation_adequate mode_1
                     (Members 1536 75 3 72 12 4 768 3072 2048 96000 246 1000 1297))
              (ex_intro _ 12%nat eq_refl)) as [n Hr].
  exists n. split; [exact Hr|].
  exact (proj2 (proj2 (proj2 (evaluation_deterministic mode_1 n n _ _ Hr Hr)))).
Defined.

(** C10, as the code has it: [frame_symbols] and [msc_symbols] are
    subtractions modulo [2 ^ 64] that nothing validates.  For a record with
    [FrameSymbols = 0], [frame_symbols] is [2 ^ 64 - 1]; for a record with
    [FrameSymbols = 0] or [FicSymbols > FrameSymbols - 1], [msc_symbols] is
    the negative difference plus [2 ^ 64], which is at least [2 ^ 63] when
    [FicSymbols] is below [2 ^ 63] (and need not be large otherwise); and
    the instantiation is accepted with these values instead of signalling
    an error. *)
Theorem symbol_counts_wrap (m : mode_descriptor) :
  well_formed m ->
  frame_symbols m = (FrameSymbols m - 1) mod 2 ^ 64 /\
  msc_symbols m = (FrameSymbols m - 1 - FicSymbols m) mod 2 ^ 64 /\
  (FrameSymbols m = 0 -> frame_symbols m = 2 ^ 64 - 1) /\
  (FrameSymbols m = 0 \/ FicSymbols m > FrameSymbols m - 1 ->
   msc_symbols m = FrameSymbols m - 1 - FicSymbols m + 2 ^ 64 /\
   (FicSymbols m < 2 ^ 63 -> 2 ^ 63 <= msc_symbols m)) /\
  (FrameCifs m <> 0 -> Carriers m < 2 ^ 63 ->
   exists d, instantiate m = Some d /\
             frame_symbols_value d = frame_symbols m /\
             msc_symbols_value d = msc_symbols m).
Proof.
  intros (Hcar & Hfs & Hfic & _).
  unfold is_size_t in *. rewrite size_modulus_eq in *.
  split; [apply frame_symbols_mod|].
  split; [apply msc_symbols_mod|].
  split; [|split].
  - intros H0. rewrite frame_symbols_mod, H0. reflexivity.
  - intros Hviol.
    assert (Hmsc : msc_symbols m = FrameSymbols m - 1 - FicSymbols m + 2 ^ 64).
    { rewrite msc_symbols_mod.
      symmetry. apply (Z.mod_unique _ _ (-1)); lia. }
    split; [exact Hmsc | lia].
  - intros Hnz Hlt. eexists. split.
    + apply instantiate_some; [exact Hnz | lia].
    + split; reflexivity.
Qed.

Lemma symbol_counts_wrap_witness :
  well_formed (template 1536 0 3 12 4 96000 246 1000 1297) /\
  frame_symbols (template 1536 0 3 12 4 96000 246 1000 1297) = 2 ^ 64 - 1.
Proof.
  assert (Hwf : well_formed (template 1536 0 3 12 4 96000 246 1000 1297))
    by size_t_crush.
  split; [exact Hwf|].
  destruct (symbol_counts_wrap (template 1536 0 3 12 4 96000 246 1000 1297) Hwf)
    as (_ & _ & H0 & _).
  exact (H0 eq_refl).
Defined.

(** C10 fails as stated: with [FrameSymbols = 76] and
    [FicSymbols = 2 ^ 64 - 1] the precondition [FicSymbols <= FrameSymbols - 1]
    is violated and the subtraction wraps, but to [msc_symbols = 76], no
    larger than the symbol count of the frame; the instantiation is
    accepted. *)
Lemma symbol_counts_wrap_to_small :
  well_formed (template 1536 76 18446744073709551615 12 4 96000 246 1000 1297) /\
  FicSymbols (template 1536 76 18446744073709551615 12 4 96000 246 1000 1297) >
    FrameSymbols (template 1536 76 18446744073709551615 12 4 96000 246 1000 1297) - 1 /\
  msc_symbols (template 1536 76 18446744073709551615 12 4 96000 246 1000 1297) = 76 /\
  instantiate (template 1536 76 18446744073709551615 12 4 96000 246 1000 1297) =
    Some (Members 1536 75 18446744073709551615 76 12 4 768 3072 2048
            96000 246 1000 1297).
Proof.
  split; [size_t_crush|]. split; [cbn; lia|].
  split; vm_compute; reflexivity.
Qed.

(** * Further properties of the header *)

(** ** The recursion from an arbitrary accumulator *)

(** From any positive accumulator the doubling stays below [2 ^ 64] as long
    as it has not passed a [value] below [2 ^ 63]. *)
Lemma doubling_from_start (fuel : nat) :
  forall (value start : Z),
    0 < start -> 0 <= value < 2 ^ 63 ->
    (0 < fuel)%nat -> value + 1 - start < Z.of_nat fuel ->
    exists j, 0 <= j /\
      next_power_of_two_fuel fuel value start = Some (start * 2 ^ j) /\
      value < start * 2 ^ j /\
      (j = 0 \/ start * 2 ^ j <= 2 * value).
Proof.
  induction fuel as [|fuel IH]; intros value start Hs Hv Hpos Hfuel; [lia|].
  rewrite detail_facts.fuel_step.
  destruct (Z.gtb_spec start value) as [Hgt|Hle].
  - exists 0. rewrite Z.pow_0_r, Z.mul_1_r. repeat split; lia.
  - assert (Hw : wrap (start * 2) = start * 2)
      by (apply wrap_small; unfold is_size_t; rewrite size_modulus_eq; lia).
    rewrite Hw.
    destruct (IH value (start * 2)) as (j & Hj & Hr & Habove & Hnear); try lia.
    exists (j + 1).
    assert (Hpow : start * 2 ^ (j + 1) = start * 2 * 2 ^ j)
      by (rewrite <- pow2_double by lia; lia).
    rewrite Hpow. repeat split; try lia; [exact Hr|].
    right. destruct Hnear as [->|Hnear]; [rewrite Z.pow_0_r; lia | exact Hnear].
Qed.

(** X1: called with any accumulator [start >= 1] and a [value] below
    [2 ^ 63], the function returns [start * 2 ^ j] for some [j]: the result
    is strictly above [value], and it is [start] itself or at most
    [2 * value]. *)
Theorem next_power_of_two_from_start (value start : Z) :
  0 < start -> 0 <= value < 2 ^ 63 ->
  exists r j, returns value start r /\ 0 <= j /\ r = start * 2 ^ j /\
              value < r /\ (r = start \/ r <= 2 * value).
Proof.
  intros Hs Hv.
  destruct (doubling_from_start (S (Z.to_nat (value + 1))) value start)
    as (j & Hj & Hr & Habove & Hnear); try lia.
  exists (start * 2 ^ j), j. split; [eexists; exact Hr|].
  repeat split; try lia.
  destruct Hnear as [->|Hnear]; [left; rewrite Z.pow_0_r; lia | right; exact Hnear].
Qed.

Lemma next_power_of_two_from_start_witness :
  exists r j, returns 100 3 r /\ 0 <= j /\ r = 3 * 2 ^ j /\
              100 < r /\ (r = 3 \/ r <= 2 * 100).
Proof.
  exact (next_power_of_two_from_start 100 3 ltac:(lia)
           ltac:(split; [lia | reflexivity])).
Defined.

(** X2: called with the accumulator [start = 0], the function never
    returns, whatever the [value]: [0] is never above a [std::size_t] and
    doubles to itself. *)
Theorem next_power_of_two_from_zero (value : Z) :
  0 <= value -> diverges value 0.
Proof.
  intros Hv fuel. induction fuel as [|fuel IH]; [reflexivity|].
  rewrite detail_facts.fuel_step.
  destruct (Z.gtb_spec 0 value) as [Hc|_]; [lia|].
  rewrite wrap_double_zero. exact IH.
Qed.

Lemma next_power_of_two_from_zero_witness : diverges 0 0 /\ 0 <= 0.
Proof.
  split; [|lia]. exact (next_power_of_two_from_zero 0 ltac:(lia)).
Defined.

(** ** The result of [next_power_of_two] *)

(** X3: for [0 <= n < 2 ^ 63] the call returns, and its result is the
    smallest power of two strictly above [n]: it is a power of two, it
    exceeds [n], and no power of two that exceeds [n] is smaller. *)
Theorem next_power_of_two_smallest_above (n : Z) :
  0 <= n < 2 ^ 63 ->
  exists r, next_power_of_two n = Some r /\
            is_power_of_two r /\ n < r /\
            forall p, is_power_of_two p -> n < p -> r <= p.
Proof.
  intros Hn.
  pose proof (detail_facts.next_power_of_two_spec n Hn) as Hr.
  exists (2 ^ exponent_above n). split; [exact Hr|]. split.
  - exists (exponent_above n). split; [|reflexivity].
    apply (detail_facts.exponent_above_bounds n Hn).
  - exact (detail_facts.next_power_of_two_least n _ Hn Hr).
Qed.

Lemma next_power_of_two_smallest_above_witness :
  exists r, next_power_of_two 192 = Some r /\
            is_power_of_two r /\ 192 < r /\
            forall p, is_power_of_two p -> 192 < p -> r <= p.
Proof.
  exact (next_power_of_two_smallest_above 192 ltac:(split; [lia | reflexivity])).
Defined.

Lemma exponent_above_log2 (n : Z) : 1 <= n -> exponent_above n = Z.log2 n + 1.
Proof.
  intros Hn. unfold exponent_above.
  rewrite Z.log2_up_eqn by lia.
  replace (Z.pred (n + 1)) with n by lia. lia.
Qed.

(** X4: for [1 <= n < 2 ^ 63] the doubling search agrees with the bit-scan
    formula: the result is [1 << (log2 n + 1)], one past the highest set
    bit of [n]. *)
Theorem next_power_of_two_bit_scan (n : Z) :
  1 <= n < 2 ^ 63 ->
  next_power_of_two n = Some (Z.shiftl 1 (Z.log2 n + 1)).
Proof.
  intros Hn.
  rewrite detail_facts.next_power_of_two_spec by lia.
  rewrite exponent_above_log2 by lia.
  rewrite Z.shiftl_1_l. reflexivity.
Qed.

Lemma next_power_of_two_bit_scan_witness :
  next_power_of_two 1536 = Some (Z.shiftl 1 (Z.log2 1536 + 1)) /\
  Z.shiftl 1 (Z.log2 1536 + 1) = 2048.
Proof.
  split; [|reflexivity].
  exact (next_power_of_two_bit_scan 1536 ltac:(split; [lia | reflexivity])).
Defined.

(** X5: the result is monotone in its argument: for
    [0 <= n1 <= n2 < 2 ^ 63] both calls return, and the result for [n1] is
    at most the result for [n2]. *)
Theorem next_power_of_two_monotone (n1 n2 : Z) :
  0 <= n1 -> n1 <= n2 -> n2 < 2 ^ 63 ->
  exists r1 r2, next_power_of_two n1 = Some r1 /\
                next_power_of_two n2 = Some r2 /\
                r1 <= r2.
Proof.
  intros H0 Hle Hlt.
  pose proof (detail_facts.next_power_of_two_spec n1 ltac:(lia)) as Hr1.
  pose proof (detail_facts.next_power_of_two_spec n2 ltac:(lia)) as Hr2.
  exists (2 ^ exponent_above n1), (2 ^ exponent_above n2).
  split; [exact Hr1|]. split; [exact Hr2|].
  destruct (detail_facts.next_power_of_two_least n1 _ ltac:(lia) Hr1) as (_ & Hleast).
  destruct (detail_facts.next_power_of_two_least n2 _ ltac:(lia) Hr2) as (Habove & _).
  apply Hleast; [|lia].
  exists (exponent_above n2). split; [|reflexivity].
  apply (detail_facts.exponent_above_bounds n2). lia.
Qed.

Lemma next_power_of_two_monotone_witness :
  exists r1 r2, next_power_of_two 192 = Some r1 /\
                next_power_of_two 1536 = Some r2 /\
                r1 <= r2.
Proof.
  exact (next_power_of_two_monotone 192 1536 ltac:(lia) ltac:(lia)
           ltac:(reflexivity)).
Defined.

(** While the calls left do not reach the first power of two above [value],
    the recursion runs out of them. *)
Lemma doubling_short (fuel : nat) :
  forall (e value j : Z),
    0 <= j -> j + Z.of_nat fuel <= e -> e <= 63 ->
    2 ^ (e - 1) <= value ->
    next_power_of_two_fuel fuel value (2 ^ j) = None.
Proof.
  induction fuel as [|fuel IH]; intros e value j Hj Hje He Hlow; [reflexivity|].
  rewrite detail_facts.fuel_step.
  assert (Hle : 2 ^ j <= 2 ^ (e - 1)) by (apply Z.pow_le_mono_r; lia).
  destruct (Z.gtb_spec (2 ^ j) value) as [Hc|_]; [lia|].
  rewrite wrap_double_pow2 by lia.
  apply (IH e); lia.
Qed.

(** X6: for [0 <= n < 2 ^ 63] the call [next_power_of_two(n)] needs exactly
    [log2_up (n + 1) + 1] nested calls: it returns when at least that many
    are allowed, and not with fewer. *)
Theorem next_power_of_two_depth (n : Z) (fuel : nat) :
  0 <= n < 2 ^ 63 ->
  (exists r, next_power_of_two_fuel fuel n 1 = Some r) <->
  (Z.to_nat (Z.log2_up (n + 1)) < fuel)%nat.
Proof.
  intros Hn. fold (exponent_above n).
  destruct (detail_facts.exponent_above_bounds n Hn) as (He & Hlow & Hup).
  split.
  - intros [r Hr].
    destruct (Nat.lt_ge_cases (Z.to_nat (exponent_above n)) fuel) as [H|H];
      [exact H|].
    destruct fuel as [|fuel]; [discriminate Hr|].
    assert (Hs : next_power_of_two_fuel (S fuel) n (2 ^ 0) = None)
      by (apply (doubling_short (S fuel) (exponent_above n)); try lia;
          apply Hlow; lia).
    change (2 ^ 0) with 1 in Hs. rewrite Hs in Hr. discriminate Hr.
  - intros Hfuel. eexists.
    apply detail_facts.next_power_of_two_fuel_spec; assumption.
Qed.

Lemma next_power_of_two_depth_witness :
  (exists r, next_power_of_two_fuel 12 1536 1 = Some r) /\
  next_power_of_two_fuel 11 1536 1 = None.
Proof.
  split; [|reflexivity].
  apply (next_power_of_two_depth 1536 12 ltac:(split; [lia | reflexivity])).
  vm_compute. reflexivity.
Defined.

(** X7: the arguments that yield a given power of two: for a
    [std::size_t] [n] and [1 <= k <= 63], [next_power_of_two(n)] is [2 ^ k]
    exactly when [2 ^ (k - 1) <= n < 2 ^ k]. *)
Theorem next_power_of_two_fibre (n k : Z) :
  is_size_t n -> 1 <= k <= 63 ->
  next_power_of_two n = Some (2 ^ k) <-> 2 ^ (k - 1) <= n < 2 ^ k.
Proof.
  intros [Hn0 _] Hk. split.
  - intros Hr.
    destruct (Z_lt_le_dec n (2 ^ 63)) as [Hlt|Hge].
    + destruct (detail_facts.exponent_above_bounds n (conj Hn0 Hlt))
        as (He & Hlow & Hup).
      rewrite detail_facts.next_power_of_two_spec in Hr by lia.
      injection Hr as Hr.
      apply Z.pow_inj_r in Hr; [|lia|lia|lia].
      rewrite <- Hr. split; [apply Hlow; lia | exact Hup].
    + unfold next_power_of_two in Hr.
      rewrite (detail_facts.next_power_of_two_diverges n Hge) in Hr.
      discriminate Hr.
  - intros [Hlow Hup].
    pose proof (detail_facts.doubling_reaches (Z.to_nat k) k n recursion_budget) as H.
    rewrite Z2Nat.id, Z.sub_diag in H by lia.
    apply H; unfold recursion_budget; lia.
Qed.

Lemma next_power_of_two_fibre_witness :
  is_size_t 1536 /\ next_power_of_two 1536 = Some (2 ^ 11).
Proof.
  assert (Hn : is_size_t 1536) by size_t_crush.
  split; [exact Hn|].
  apply (next_power_of_two_fibre 1536 11 Hn ltac:(lia)).
  split; [vm_compute; discriminate | reflexivity].
Defined.

(** ** Relations between the member constants *)

(** X8: for a descriptor with [1 <= Carriers < 2 ^ 63], [fft_length] lies
    strictly above [carriers] and is at most [symbol_bits], which in turn is
    below twice [fft_length]: the transform is never twice as long as the
    carriers need. *)
Theorem fft_length_between (m : mode_descriptor) :
  1 <= Carriers m < 2 ^ 63 ->
  exists r, fft_length m = Some r /\
            carriers m < r /\ r <= symbol_bits m /\ symbol_bits m < 2 * r.
Proof.
  intros Hc. unfold fft_length, symbol_bits, carriers.
  destruct (detail_facts.exponent_above_bounds (Carriers m) ltac:(lia))
    as (He & Hlow & Hup).
  assert (Hpos : 0 < exponent_above (Carriers m)).
  { rewrite exponent_above_log2 by lia.
    pose proof (Z.log2_nonneg (Carriers m)). lia. }
  specialize (Hlow Hpos).
  assert (Hdouble : 2 ^ exponent_above (Carriers m) =
                    2 ^ (exponent_above (Carriers m) - 1) * 2).
  { rewrite pow2_double by lia. f_equal. lia. }
  assert (Hw : wrap (Carriers m * 2) = Carriers m * 2)
    by (apply wrap_small; unfold is_size_t; rewrite size_modulus_eq; lia).
  exists (2 ^ exponent_above (Carriers m)). rewrite Hw.
  split; [apply detail_facts.next_power_of_two_spec; lia | lia].
Qed.

Lemma fft_length_between_witness :
  exists r, fft_length mode_3 = Some r /\
            carriers mode_3 < r /\ r <= symbol_bits mode_3 /\
            symbol_bits mode_3 < 2 * r.
Proof.
  exact (fft_length_between mode_3 ltac:(split; [cbn; lia | reflexivity])).
Defined.

(** X9: the instantiation of a well-formed descriptor is accepted exactly
    when [FrameCifs] is not zero and [Carriers] is below [2 ^ 63]; the
    symbol counts, the block counts and the durations are never a ground of
    rejection. *)
Theorem instantiate_accepted_iff (m : mode_descriptor) :
  well_formed m ->
  (exists d, instantiate m = Some d) <->
  FrameCifs m <> 0 /\ Carriers m < 2 ^ 63.
Proof.
  intros ([Hc0 _] & _). split.
  - intros [d Hd]. apply instantiate_within_inv in Hd as (fft & Hfft & Hnz & _).
    split; [exact Hnz|].
    destruct (Z_lt_le_dec (Carriers m) (2 ^ 63)) as [Hlt|Hge]; [exact Hlt|].
    rewrite (detail_facts.next_power_of_two_diverges _ Hge) in Hfft.
    discriminate Hfft.
  - intros [Hnz Hlt]. eexists. apply instantiate_some; [exact Hnz | lia].
Qed.

Lemma instantiate_accepted_iff_witness :
  well_formed (template 1536 0 0 0 1 0 0 0 0) /\
  exists d, instantiate (template 1536 0 0 0 1 0 0 0 0) = Some d.
Proof.
  assert (Hwf : well_formed (template 1536 0 0 0 1 0 0 0 0)) by size_t_crush.
  split; [exact Hwf|].
  apply (instantiate_accepted_iff (template 1536 0 0 0 1 0 0 0 0) Hwf).
  split; [cbn; lia | reflexivity].
Defined.

(** X10: in every accepted instantiation of a well-formed descriptor each
    member constant is a [std::size_t]; [fft_length] is a power of two
    strictly above [carriers] and at most [2 ^ 63]; and [symbol_bits] is
    [2 * carriers] without wrap-around. *)
Theorem instantiate_members_in_range (m : mode_descriptor) (d : members) :
  well_formed m ->
  instantiate m = Some d ->
  members_are_size_t d /\
  is_power_of_two (fft_length_value d) /\
  carriers_value d < fft_length_value d <= 2 ^ 63 /\
  symbol_bits_value d = 2 * carriers_value d.
Proof.
  intros Hwf Hd.
  assert (Hacc : FrameCifs m <> 0 /\ Carriers m < 2 ^ 63).
  { pose proof Hwf as ([Hc0 _] & _).
    apply instantiate_within_inv in Hd as (fft & Hfft & Hnz & _).
    split; [exact Hnz|].
    destruct (Z_lt_le_dec (Carriers m) (2 ^ 63)) as [Hlt|Hge]; [exact Hlt|].
    rewrite (detail_facts.next_power_of_two_diverges _ Hge) in Hfft.
    discriminate Hfft. }
  destruct Hacc as [Hnz Hlt].
  destruct Hwf as (Hcar & Hfs & Hfic & Hfib & Hcif & Hfd & Hgd & Hsd & Hnd).
  rewrite instantiate_some in Hd by (unfold is_size_t in Hcar; lia).
  injection Hd as <-.
  destruct (detail_facts.exponent_above_bounds (Carriers m)) as (He & _ & Hup);
    [unfold is_size_t in Hcar; lia|].
  assert (Hpow : 2 ^ exponent_above (Carriers m) <= 2 ^ 63)
    by (apply Z.pow_le_mono_r; lia).
  assert (Hquot : is_size_t (wrap (FrameFibs m * 256) / FrameCifs m)).
  { pose proof (wrap_is_size_t (FrameFibs m * 256)) as Hw.
    unfold is_size_t in *. split.
    - apply Z.div_pos; lia.
    - apply Z.div_lt_upper_bound; nia. }
  unfold members_are_size_t.
  cbn [carriers_value frame_symbols_value fic_symbols_value msc_symbols_value
       frame_fibs_value frame_cifs_value fib_codeword_bits_value
       symbol_bits_value fft_length_value frame_duration_value
       guard_duration_value symbol_duration_value null_duration_value].
  unfold carriers, frame_symbols, fic_symbols, msc_symbols, frame_fibs,
    frame_cifs, symbol_bits, frame_duration, guard_duration, symbol_duration,
    null_duration.
  repeat match goal with |- _ /\ _ => split end;
    try assumption; try apply wrap_is_size_t.
  - apply pow2_is_size_t. lia.
  - exists (exponent_above (Carriers m)). split; [lia | reflexivity].
  - unfold carriers. rewrite Z.mul_comm. apply wrap_small.
    unfold is_size_t in *. rewrite size_modulus_eq in *. lia.
Qed.

Lemma instantiate_members_in_range_witness :
  members_are_size_t (Members 192 152 8 144 4 1 1024 384 256 24000 31 125 168).
Proof.
  exact (proj1 (instantiate_members_in_range mode_3
                  (Members 192 152 8 144 4 1 1024 384 256 24000 31 125 168)
                  ltac:(size_t_crush) ltac:(vm_compute; reflexivity))).
Defined.

(** X11: for a well-formed descriptor the phase-reference symbol, the FIC
    symbols and the MSC symbols always add up to [FrameSymbols] modulo
    [2 ^ 64]; they add up to it over the integers exactly when
    [FrameSymbols >= 1] and [FicSymbols <= FrameSymbols - 1]. *)
Theorem symbol_partition (m : mode_descriptor) :
  well_formed m ->
  wrap (1 + fic_symbols m + msc_symbols m) = FrameSymbols m /\
  (1 + fic_symbols m + msc_symbols m = FrameSymbols m <->
   1 <= FrameSymbols m /\ FicSymbols m <= FrameSymbols m - 1).
Proof.
  intros (_ & Hfs & Hfic & _).
  unfold is_size_t, fic_symbols, wrap in *. rewrite size_modulus_eq in *.
  rewrite msc_symbols_mod. change (2 ^ 64) with 18446744073709551616.
  destruct (Z_le_gt_dec (FicSymbols m) (FrameSymbols m - 1)) as [Hok|Hbad].
  - rewrite (Z.mod_small (FrameSymbols m - 1 - FicSymbols m)) by lia.
    replace (1 + FicSymbols m + (FrameSymbols m - 1 - FicSymbols m))
      with (FrameSymbols m) by lia.
    split; [apply Z.mod_small; lia | lia].
  - assert (Hmsc : (FrameSymbols m - 1 - FicSymbols m) mod 18446744073709551616 =
                   FrameSymbols m - 1 - FicSymbols m + 18446744073709551616)
      by (symmetry; apply (Z.mod_unique _ _ (-1)); lia).
    rewrite Hmsc. split; [|lia].
    symmetry. apply (Z.mod_unique _ _ 1); lia.
Qed.

Lemma symbol_partition_witness :
  1 + fic_symbols mode_3 + msc_symbols mode_3 = FrameSymbols mode_3.
Proof.
  apply (symbol_partition mode_3 ltac:(size_t_crush)). cbn. lia.
Defined.

(** X12: for a well-formed descriptor with [FrameFibs] below [2 ^ 56] and a
    non-zero [FrameCifs], [fib_codeword_bits] times [frame_cifs] gives back
    [frame_fibs * 256] exactly when [FrameCifs] divides that product. *)
Theorem fib_codeword_bits_exact (m : mode_descriptor) :
  well_formed m ->
  FrameFibs m < 2 ^ 56 ->
  FrameCifs m <> 0 ->
  exists q, fib_codeword_bits m = Some q /\
            (q * frame_cifs m = frame_fibs m * 256 <->
             (FrameFibs m * 256) mod FrameCifs m = 0).
Proof.
  intros (_ & _ & _ & Hfib & Hcif & _) Hsmall Hnz.
  unfold is_size_t, frame_cifs, frame_fibs in *. rewrite size_modulus_eq in *.
  assert (Hw : wrap (FrameFibs m * 256) = FrameFibs m * 256)
    by (apply wrap_small; unfold is_size_t; rewrite size_modulus_eq; lia).
  exists (FrameFibs m * 256 / FrameCifs m). split.
  - rewrite fib_codeword_bits_some, Hw by exact Hnz. reflexivity.
  - pose proof (Z.div_mod (FrameFibs m * 256) (FrameCifs m) Hnz) as Hdm.
    lia.
Qed.

Lemma fib_codeword_bits_exact_witness :
  exists q, fib_codeword_bits mode_1 = Some q /\
            (q * frame_cifs mode_1 = frame_fibs mode_1 * 256 <->
             (FrameFibs mode_1 * 256) mod FrameCifs mode_1 = 0).
Proof.
  exact (fib_codeword_bits_exact mode_1 ltac:(size_t_crush)
           ltac:(reflexivity) ltac:(cbn; lia)).
Defined.

(** X13: the product [frame_fibs * 256] wraps: adding any multiple of
    [2 ^ 56] to [FrameFibs] leaves [fib_codeword_bits] unchanged, so the
    eight high bits of [FrameFibs] are ignored. *)
Theorem fib_codeword_bits_high_bits (m : mode_descriptor) (k : Z) :
  fib_codeword_bits
    (template (Carriers m) (FrameSymbols m) (FicSymbols m)
       (FrameFibs m + k * 2 ^ 56) (FrameCifs m) (FrameDuration m)
       (GuardDuration m) (SymbolDuration m) (NullDuration m)) =
  fib_codeword_bits m.
Proof.
  unfold fib_codeword_bits, frame_cifs, frame_fibs, wrap. cbn [FrameCifs FrameFibs].
  replace ((FrameFibs m + k * 2 ^ 56) * 256)
    with (FrameFibs m * 256 + k * size_modulus)
    by (rewrite size_modulus_eq; change (2 ^ 56) with 72057594037927936; lia).
  rewrite Z_mod_plus_full. reflexivity.
Qed.

(** X14: in each of the four standardized modes the division of
    [fib_codeword_bits] is exact, the MSC symbols hold [55296] bits for each
    CIF, and the FIC symbols hold three times [fib_codeword_bits] for each
    CIF. *)
Theorem standard_modes_capacity :
  Forall (fun m =>
            exists d, instantiate m = Some d /\
              fib_codeword_bits_value d * frame_cifs_value d =
                frame_fibs_value d * 256 /\
              msc_symbols_value d * symbol_bits_value d =
                frame_cifs_value d * 55296 /\
              fic_symbols_value d * symbol_bits_value d =
                3 * fib_codeword_bits_value d * frame_cifs_value d)
         standard_modes.
Proof.
  repeat constructor; eexists; (split; [vm_compute; reflexivity|]);
    repeat split; reflexivity.
Qed.
